(** * document-word-extractor: the text pipeline of [index.js]

    A shallow embedding of [index.js] and the properties of its word list.

    JavaScript strings are sequences of UTF-16 code units; a code unit is a
    [Z] in [0, 65536) and a string is a [list Z].  The file system is a map
    from paths to decoded text, [main] is a computation in a small
    state-and-exception monad over it. *)

From Stdlib Require Import List ZArith Lia Bool String Ascii.
From Stdlib Require Import Sorting.Sorted Sorting.Permutation.
Import ListNotations.
Local Open Scope Z_scope.

(** ** Strings *)

Definition codeUnit := Z.
Definition jsstring := list codeUnit.

(** A string literal of the source, as its code units (ASCII only). *)
Definition str (s : string) : jsstring :=
  map (fun a => Z.of_nat (nat_of_ascii a)) (list_ascii_of_string s).

Definition LF : codeUnit := 10.
Definition SPACE : codeUnit := 32.
Definition BACKSLASH : codeUnit := 92.

(** [x === y] on strings. *)
Fixpoint streq (x y : jsstring) : bool :=
  match x, y with
  | [], [] => true
  | a :: x', b :: y' => (a =? b) && streq x' y'
  | _, _ => false
  end.

(** [s.split('')]: one single-unit string per code unit. *)
Definition splitUnits (s : jsstring) : list jsstring :=
  map (fun c => [c]) s.

(** [s.split(sep)] for a one-unit separator; never the empty array. *)
Fixpoint split (sep : codeUnit) (s : jsstring) : list jsstring :=
  match s with
  | [] => [[]]
  | c :: r =>
      if c =? sep then [] :: split sep r
      else match split sep r with
           | h :: t => (c :: h) :: t
           | [] => [[c]]
           end
  end.

(** [a.join(sep)] for a one-unit separator. *)
Fixpoint join (sep : codeUnit) (a : list jsstring) : jsstring :=
  match a with
  | [] => []
  | [w] => w
  | w :: r => w ++ sep :: join sep r
  end.

(** ** Regular expressions

    The fragment of ECMAScript patterns (no [u], [i], [m] or [y] flag) that
    the program uses: a pattern is a sequence of terms, each a pattern
    character, the dot, a character class, or one of the two anchors.
    Such a pattern has at most one match at a position. *)

Inductive term : Type :=
| Char (c : codeUnit)
| Dot
| Class (cs : list codeUnit)
| Bol
| Eol.

Definition regex := list term.

(** The syntax characters of the pattern grammar:  ^ $ \ . * + ? ( ) [ ] { } |  *)
Definition syntaxCharacters : list codeUnit :=
  [94; 36; 92; 46; 42; 43; 63; 40; 41; 91; 93; 123; 125; 124].

Definition mem (c : codeUnit) (cs : list codeUnit) : bool :=
  existsb (Z.eqb c) cs.

Definition isSyntaxCharacter (c : codeUnit) : bool := mem c syntaxCharacters.

(** Line terminators, which the dot does not match. *)
Definition isLineTerminator (c : codeUnit) : bool := mem c [10; 13; 8232; 8233].

(** [new RegExp(pattern, 'g')] on the fragment.  [None] when the constructor
    throws a SyntaxError (a lone quantifier, bracket or backslash) or when the
    pattern leaves the fragment (groups, classes, alternation, escapes other
    than the identity escape of a syntax character). *)
Fixpoint RegExp (pattern : jsstring) : option regex :=
  match pattern with
  | [] => Some []
  | c :: rest =>
      if c =? BACKSLASH then
        match rest with
        | d :: rest' =>
            if isSyntaxCharacter d
            then option_map (cons (Char d)) (RegExp rest')
            else None
        | [] => None
        end
      else if c =? 46 then option_map (cons Dot) (RegExp rest)
      else if c =? 94 then option_map (cons Bol) (RegExp rest)
      else if c =? 36 then option_map (cons Eol) (RegExp rest)
      else if isSyntaxCharacter c then None
      else option_map (cons (Char c)) (RegExp rest)
  end.

(** The match of a pattern at one position: the number of code units it
    consumes there.  [atStart] says whether the position is index 0. *)
Fixpoint matchHere (r : regex) (atStart : bool) (s : jsstring) : option nat :=
  match r with
  | [] => Some O
  | Char c :: r' =>
      match s with
      | x :: s' => if x =? c then option_map S (matchHere r' false s') else None
      | [] => None
      end
  | Dot :: r' =>
      match s with
      | x :: s' =>
          if isLineTerminator x then None else option_map S (matchHere r' false s')
      | [] => None
      end
  | Class cs :: r' =>
      match s with
      | x :: s' => if mem x cs then option_map S (matchHere r' false s') else None
      | [] => None
      end
  | Bol :: r' => if atStart then matchHere r' atStart s else None
  | Eol :: r' =>
      match s with
      | [] => matchHere r' atStart s
      | _ :: _ => None
      end
  end.

(** A replacement string: literal units and [$&], the matched substring. *)
Inductive repl : Type :=
| Lit (c : codeUnit)
| Matched.

Definition expand (rep : list repl) (m : jsstring) : jsstring :=
  flat_map (fun x => match x with Lit c => [c] | Matched => m end) rep.

(** [s.replace(r, rep)] for a global [r]: the matches are taken left to
    right without overlap; after an empty match the search moves on by one
    code unit.  [skip] counts the units of the current match still to drop. *)
Fixpoint replaceFrom (r : regex) (rep : list repl)
         (skip : nat) (atStart : bool) (s : jsstring) : jsstring :=
  match s with
  | [] =>
      match skip with
      | O => match matchHere r atStart [] with
             | Some _ => expand rep []
             | None => []
             end
      | S _ => []
      end
  | c :: s' =>
      match skip with
      | S k => replaceFrom r rep k false s'
      | O =>
          match matchHere r atStart s with
          | Some O => expand rep [] ++ c :: replaceFrom r rep O false s'
          | Some (S k) => expand rep (firstn (S k) s) ++ replaceFrom r rep k false s'
          | None => c :: replaceFrom r rep O false s'
          end
      end
  end.

Definition replace (r : regex) (rep : list repl) (s : jsstring) : jsstring :=
  replaceFrom r rep O true s.

(** ** The functions of [index.js] *)

(** [input.replace(/ /g, '\n')] *)
Definition flattenText (input : jsstring) : jsstring :=
  replace [Char SPACE] [Lit LF] input.

(** [expression.replace(/[.*+?^${}()|[\]\\]/g, '\\$&')] *)
Definition escapeExpression (expression : jsstring) : jsstring :=
  replace [Class [46; 42; 43; 63; 94; 36; 123; 125; 40; 41; 124; 91; 93; 92]]
          [Lit BACKSLASH; Matched] expression.

(** [new RegExp(escapeExpression(expression), 'g')] *)
Definition buildRegEx (expression : jsstring) : option regex :=
  RegExp (escapeExpression expression).

(** [chars.forEach(char => text = text.replace(buildRegEx(char), ''))];
    [None] when [buildRegEx] throws. *)
Fixpoint removeCharacters (text : jsstring) (chars : list jsstring)
  : option jsstring :=
  match chars with
  | [] => Some text
  | char :: chars' =>
      match buildRegEx char with
      | Some r => removeCharacters (replace r [] text) chars'
      | None => None
      end
  end.

(** [wordsToRemove.includes(word)] *)
Definition includes (a : list jsstring) (word : jsstring) : bool :=
  existsb (streq word) a.

(** [words.filter(word => !wordsToRemove.includes(word))] *)
Definition removeWords (words wordsToRemove : list jsstring) : list jsstring :=
  filter (fun word => negb (includes wordsToRemove word)) words.

(** ** Sorting and sets *)

(** [x < y] on strings: lexicographic on code units, a proper prefix first. *)
Fixpoint ltb (x y : jsstring) : bool :=
  match x, y with
  | _, [] => false
  | [], _ :: _ => true
  | a :: x', b :: y' =>
      if a <? b then true else if b <? a then false else ltb x' y'
  end.

Fixpoint insert (w : jsstring) (a : list jsstring) : list jsstring :=
  match a with
  | [] => [w]
  | h :: t => if ltb w h then w :: a else h :: insert w t
  end.

(** [a.sort()] with the default comparison, which orders strings by [<].
    The algorithm is the engine's choice; a stable insertion sort stands
    for it (see [sort_unique]: the order fixes the result). *)
Definition sort (a : list jsstring) : list jsstring :=
  fold_right insert [] a.

(** [set.add(w)] on a Set kept in insertion order. *)
Definition setAdd (s : list jsstring) (w : jsstring) : list jsstring :=
  if includes s w then s else s ++ [w].

(** [[...new Set(a)]] *)
Definition newSet (a : list jsstring) : list jsstring :=
  fold_left setAdd a [].

(** ** The pipeline *)

Section Pipeline.

(** [String.prototype.toLowerCase], supplied by the engine. *)
Variable toLowerCase : jsstring -> jsstring.

(** Lines 132-138 of [main]: the text after flattening, lower-casing and
    stripping. *)
Definition normalize (inputText : jsstring) (specialChars : list jsstring)
  : option jsstring :=
  let inputText := flattenText inputText in
  let inputText := toLowerCase inputText in
  removeCharacters inputText specialChars.

(** Lines 141-153 of [main]: the word list from the normalized text. *)
Definition wordsOf (inputText : jsstring) (ignoredWords knownWords : list jsstring)
  : list jsstring :=
  let inputLines := filter (fun line => negb (streq line [])) (split LF inputText) in
  let inputLines := sort inputLines in
  let inputLines := newSet inputLines in
  let inputLines := removeWords inputLines ignoredWords in
  let inputLines := removeWords inputLines knownWords in
  inputLines.

(** Lines 132-153 of [main]: the value of [inputLines] that is joined and
    written. *)
Definition extract (inputText : jsstring)
           (specialChars ignoredWords knownWords : list jsstring)
  : option (list jsstring) :=
  match normalize inputText specialChars with
  | Some inputText => Some (wordsOf inputText ignoredWords knownWords)
  | None => None
  end.

(** Line 157 of [main]: the text handed to [writeTextAsync]. *)
Definition outputText (inputText : jsstring)
           (specialChars ignoredWords knownWords : list jsstring)
  : option jsstring :=
  option_map (join LF) (extract inputText specialChars ignoredWords knownWords).

End Pipeline.

(** ** Files and [main] *)

Local Open Scope string_scope.

Definition INPUT_FILE_PATH := "input.txt".
Definition SPECIAL_CHARACTER_FILE_PATH := "special-chars.txt".
Definition IGNORED_WORDS_FILE_PATH := "ignored-words.txt".
Definition KNOWN_WORDS_FILE_PATH := "known-words.txt".
Definition OUTPUT_FILE_PATH := "output.txt".

(** The working directory (each file's text, decoded) and the console. *)
Record World : Type := mkWorld {
  files : string -> option jsstring;
  console : list string
}.

(** A computation either returns or throws ([None]); its effects up to
    that point stay in the world. *)
Definition M (A : Type) : Type := World -> option A * World.

Definition ret {A} (a : A) : M A := fun w => (Some a, w).

Definition bind {A B} (m : M A) (k : A -> M B) : M B :=
  fun w => match m w with
           | (Some a, w') => k a w'
           | (None, w') => (None, w')
           end.

Notation "x <- m ;; k" := (bind m (fun x => k))
  (at level 61, m at next level, right associativity).
Notation "m ;; k" := (bind m (fun _ => k))
  (at level 61, right associativity).

Definition throwing {A} (o : option A) : M A := fun w => (o, w).

Definition log (msg : string) : M unit :=
  fun w => (Some tt, mkWorld (files w) (console w ++ [msg])).

(** [readFileAsync(path, 'utf8')]: rejects when the file is missing. *)
Definition readTextAsync (path : string) : M jsstring :=
  fun w => (files w path, w).

Definition writeTextAsync (path : string) (text : jsstring) : M unit :=
  fun w => (Some tt,
            mkWorld (fun p => if String.eqb p path then Some text else files w p)
                    (console w)).

Definition getSpecialCharacters (path : string) : M (list jsstring) :=
  text <- readTextAsync path ;; ret (splitUnits text).

Definition getListOfWords (path : string) : M (list jsstring) :=
  text <- readTextAsync path ;; ret (split LF text).

Section Main.

Variable toLowerCase : jsstring -> jsstring.

Definition main : M unit :=
  log "Process started..." ;;
  specialChars <- getSpecialCharacters SPECIAL_CHARACTER_FILE_PATH ;;
  ignoredWords <- getListOfWords IGNORED_WORDS_FILE_PATH ;;
  knownWords <- getListOfWords KNOWN_WORDS_FILE_PATH ;;
  log "...reading input" ;;
  inputText <- readTextAsync INPUT_FILE_PATH ;;
  log "...flattening input" ;;
  let inputText := flattenText inputText in
  log "...lower-casing input" ;;
  let inputText := toLowerCase inputText in
  log "...removing invalid characters" ;;
  inputText <- throwing (removeCharacters inputText specialChars) ;;
  let inputLines := filter (fun line => negb (streq line [])) (split LF inputText) in
  log "...sorting input" ;;
  let inputLines := sort inputLines in
  log "...removing duplicates" ;;
  let inputLines := newSet inputLines in
  log "...removing ignored words" ;;
  let inputLines := removeWords inputLines ignoredWords in
  log "...removing known words" ;;
  let inputLines := removeWords inputLines knownWords in
  log "...writing output" ;;
  let outputText := join LF inputLines in
  writeTextAsync OUTPUT_FILE_PATH outputText ;;
  log "Process ended.".

End Main.

Local Close Scope string_scope.

(** [toLowerCase] on the Basic Latin block: A-Z go to a-z.  It is the
    engine's function on every string whose letters with a lower-case form
    are all ASCII, and the instance at which the pipeline is evaluated. *)
Definition asciiLowerCase (s : jsstring) : jsstring :=
  map (fun c => if (65 <=? c) && (c <=? 90) then c + 32 else c) s.

(** ** Notions of the specification *)

(** Equality of strings, decided. *)
Definition jsstring_eq_dec : forall x y : jsstring, {x = y} + {x <> y} :=
  list_eq_dec Z.eq_dec.

(** The words that are not among the excluded ones. *)
Definition without (excluded words : list jsstring) : list jsstring :=
  filter (fun w => if in_dec jsstring_eq_dec w excluded then false else true) words.

(** The working word list in the specification's words: split on line
    breaks, discard empty entries, deduplicate, sort, remove the ignored
    words, then the known words, each by equality of strings. *)
Definition referenceWords (normalized : jsstring)
           (ignoredWords knownWords : list jsstring) : list jsstring :=
  let entries := split LF normalized in
  let entries := filter (fun e => if jsstring_eq_dec e [] then false else true) entries in
  let entries := nodup jsstring_eq_dec entries in
  let entries := sort entries in
  without knownWords (without ignoredWords entries).

(** The Unicode code points of a string: a high surrogate followed by a
    low surrogate is one code point, any other unit stands for itself. *)
Fixpoint codePoints (s : jsstring) : list Z :=
  match s with
  | [] => []
  | h :: t =>
      match t with
      | l :: r =>
          if (55296 <=? h) && (h <=? 56319) && (56320 <=? l) && (l <=? 57343)
          then (65536 + (h - 55296) * 1024 + (l - 56320)) :: codePoints r
          else h :: codePoints t
      | [] => [h]
      end
  end.

(** Comparison by code points. *)
Definition codePointLtb (x y : jsstring) : bool := ltb (codePoints x) (codePoints y).

(** ** Auxiliary notions of the proofs *)

(** What [flattenText] does to one code unit. *)
Definition flattenUnit (c : codeUnit) : codeUnit := if c =? SPACE then LF else c.

(** What [escapeExpression] does to one code unit. *)
Definition escapeUnit (c : codeUnit) : jsstring :=
  if isSyntaxCharacter c then [BACKSLASH; c] else [c].

Definition isnt (c x : codeUnit) : bool := negb (x =? c).

(** [line !== ''] *)
Definition nonEmpty (line : jsstring) : bool := negb (streq line []).

(** The order of [sort] as relations. *)
Definition ltS (x y : jsstring) : Prop := ltb x y = true.
Definition leS (x y : jsstring) : Prop := ltb y x = false.

(** In the list [out], of two distinct words the one that is smaller by
    [lt] comes first. *)
Definition orderedBy (lt : jsstring -> jsstring -> bool) (out : list jsstring)
  : Prop :=
  forall (i j : nat) (x y : jsstring),
    nth_error out i = Some x -> nth_error out j = Some y ->
    x <> y -> lt x y = true -> (i < j)%nat.

(** [s.startsWith(e)] *)
Fixpoint startsWith (e s : jsstring) : bool :=
  match e, s with
  | [], _ => true
  | _ :: _, [] => false
  | a :: e', b :: s' => (b =? a) && startsWith e' s'
  end.

(** The lines [main] logs, in the order of its steps. *)
Definition progressLines : list string :=
  ["Process started..."%string; "...reading input"%string;
   "...flattening input"%string; "...lower-casing input"%string;
   "...removing invalid characters"%string; "...sorting input"%string;
   "...removing duplicates"%string; "...removing ignored words"%string;
   "...removing known words"%string; "...writing output"%string;
   "Process ended."%string].

(** The four files [main] reads. *)
Definition inputPaths : list string :=
  [SPECIAL_CHARACTER_FILE_PATH; IGNORED_WORDS_FILE_PATH;
   KNOWN_WORDS_FILE_PATH; INPUT_FILE_PATH].

(** Two working directories with the same four input files; they differ in
    the old [output.txt], in a fifth file and in the console. *)
Definition sampleFiles (old : jsstring) (p : string) : option jsstring :=
  if String.eqb p INPUT_FILE_PATH then Some (str "El gato, el perro.")
  else if String.eqb p SPECIAL_CHARACTER_FILE_PATH then Some (str ".,")
  else if String.eqb p IGNORED_WORDS_FILE_PATH then Some (str "gato")
  else if String.eqb p KNOWN_WORDS_FILE_PATH then Some (str "el" ++ [LF])
  else if String.eqb p OUTPUT_FILE_PATH then Some old
  else None.

Definition sampleWorld1 : World := mkWorld (sampleFiles (str "viejo")) [].

Definition sampleWorld2 : World :=
  mkWorld (fun p => if String.eqb p "notes.txt" then Some (str "x")
                    else sampleFiles [] p)
          ["earlier"%string].

(** * Properties *)

(** ** Equality of strings *)

Lemma streq_eq (x y : jsstring) : streq x y = true <-> x = y.
Proof.
  revert y; induction x as [|a x IH]; intros [|b y]; simpl; split;
    try congruence; try reflexivity.
  - intros H; apply andb_true_iff in H as [Hab Hxy].
    apply Z.eqb_eq in Hab; apply IH in Hxy; congruence.
  - intros H; injection H as -> ->.
    rewrite Z.eqb_refl; simpl; now apply IH.
Qed.

Lemma streq_nil_r (x : jsstring) : streq x [] = true <-> x = [].
Proof. apply streq_eq. Qed.

Lemma includes_In (a : list jsstring) (w : jsstring) :
  includes a w = true <-> In w a.
Proof.
  unfold includes; rewrite existsb_exists; split.
  - intros (x & Hx & E); apply streq_eq in E; now subst.
  - intros H; exists w; split; [assumption | now apply streq_eq].
Qed.

Lemma includes_false (a : list jsstring) (w : jsstring) :
  includes a w = false <-> ~ In w a.
Proof.
  rewrite <- includes_In; destruct (includes a w); split; congruence.
Qed.

Lemma mem_In (c : codeUnit) (cs : list codeUnit) : mem c cs = true <-> In c cs.
Proof.
  unfold mem; rewrite existsb_exists; split.
  - intros (x & Hx & E); apply Z.eqb_eq in E; now subst.
  - intros H; exists c; split; [assumption | apply Z.eqb_refl].
Qed.

Lemma mem_ext (c : codeUnit) (l1 l2 : list codeUnit) :
  (In c l1 <-> In c l2) -> mem c l1 = mem c l2.
Proof.
  intros H; apply eq_true_iff_eq; now rewrite !mem_In.
Qed.

(** ** The regular expressions of the program *)

Lemma replaceFrom_flatten (b : bool) (s : jsstring) :
  replaceFrom [Char SPACE] [Lit LF] O b s = map flattenUnit s.
Proof.
  revert b; induction s as [|c s IH]; intros b; [reflexivity|].
  simpl; unfold flattenUnit at 1; destruct (c =? SPACE); simpl; now rewrite IH.
Qed.

Lemma flattenText_map (s : jsstring) : flattenText s = map flattenUnit s.
Proof. apply replaceFrom_flatten. Qed.

Lemma escape_class (c : codeUnit) :
  mem c [46; 42; 43; 63; 94; 36; 123; 125; 40; 41; 124; 91; 93; 92]
  = isSyntaxCharacter c.
Proof.
  apply mem_ext; unfold syntaxCharacters; simpl; intuition.
Qed.

Lemma replaceFrom_escape (b : bool) (e : jsstring) :
  replaceFrom [Class [46; 42; 43; 63; 94; 36; 123; 125; 40; 41; 124; 91; 93; 92]]
              [Lit BACKSLASH; Matched] O b e
  = flat_map escapeUnit e.
Proof.
  revert b; induction e as [|c e IH]; intros b; [reflexivity|].
  cbn [replaceFrom matchHere flat_map]; rewrite escape_class.
  unfold escapeUnit at 1; destruct (isSyntaxCharacter c); simpl; now rewrite IH.
Qed.

Lemma escapeExpression_flat_map (e : jsstring) :
  escapeExpression e = flat_map escapeUnit e.
Proof. apply replaceFrom_escape. Qed.

Lemma not_syntax (c : codeUnit) :
  isSyntaxCharacter c = false ->
  (c =? BACKSLASH) = false /\ (c =? 46) = false /\ (c =? 94) = false
  /\ (c =? 36) = false.
Proof.
  intros H.
  assert (N : ~ In c syntaxCharacters)
    by (rewrite <- mem_In; fold (isSyntaxCharacter c); congruence).
  unfold BACKSLASH; repeat split; apply Z.eqb_neq; intros ->; apply N;
    unfold syntaxCharacters; simpl; tauto.
Qed.

(** An escaped expression always compiles, to the pattern that matches the
    expression unit by unit. *)
Lemma buildRegEx_literal (e : jsstring) : buildRegEx e = Some (map Char e).
Proof.
  unfold buildRegEx; rewrite escapeExpression_flat_map.
  induction e as [|c e IH]; [reflexivity|].
  cbn [flat_map map]; unfold escapeUnit at 1.
  destruct (isSyntaxCharacter c) eqn:Hc.
  - cbn [app RegExp]; rewrite Z.eqb_refl, Hc, IH; reflexivity.
  - destruct (not_syntax c Hc) as (H1 & H2 & H3 & H4).
    cbn [app RegExp]; rewrite H1, H2, H3, H4, Hc, IH; reflexivity.
Qed.

Lemma replaceFrom_unit (c : codeUnit) (b : bool) (s : jsstring) :
  replaceFrom [Char c] [] O b s = filter (isnt c) s.
Proof.
  revert b; induction s as [|x s IH]; intros b; [reflexivity|].
  simpl; unfold isnt at 1; destruct (x =? c); simpl; now rewrite IH.
Qed.

Lemma replace_unit (c : codeUnit) (s : jsstring) :
  replace [Char c] [] s = filter (isnt c) s.
Proof. apply replaceFrom_unit. Qed.

Lemma removeCharacters_total (chars : list jsstring) (text : jsstring) :
  removeCharacters text chars
  = Some (fold_left (fun t e => replace (map Char e) [] t) chars text).
Proof.
  revert text; induction chars as [|e chars IH]; intros text; [reflexivity|].
  simpl; rewrite buildRegEx_literal; apply IH.
Qed.

Lemma removeCharacters_units (cs : list codeUnit) (text : jsstring) :
  removeCharacters text (splitUnits cs)
  = Some (fold_left (fun t c => filter (isnt c) t) cs text).
Proof.
  revert text; induction cs as [|c cs IH]; intros text; [reflexivity|].
  simpl; rewrite buildRegEx_literal; simpl; rewrite replace_unit; apply IH.
Qed.

Lemma strip_fold_filter (cs : list codeUnit) (text : jsstring) :
  fold_left (fun t c => filter (isnt c) t) cs text
  = filter (fun x => negb (mem x cs)) text.
Proof.
  revert text; induction cs as [|c cs IH]; intros text; simpl.
  - induction text as [|x t IHt]; simpl; congruence.
  - rewrite IH; induction text as [|x t IHt]; simpl; [reflexivity|].
    unfold isnt at 1; destruct (x =? c); simpl; [assumption|].
    destruct (mem x cs); simpl; now rewrite IHt.
Qed.

(** What the escaping is for: unescaped, the dot is a wildcard. *)
Example dot_unescaped :
  option_map (fun r => replace r [] (str "a.b")) (RegExp (str ".")) = Some []
  /\ option_map (fun r => replace r [] (str "a.b")) (buildRegEx (str "."))
     = Some (str "ab")
  /\ RegExp (str "*") = None /\ buildRegEx (str "*") = Some [Char 42].
Proof. repeat split. Qed.

(** ** The order on strings *)

Lemma ltb_irrefl (x : jsstring) : ltb x x = false.
Proof.
  induction x as [|a x IH]; simpl; [reflexivity|].
  now rewrite Z.ltb_irrefl.
Qed.

Lemma ltb_trans (x y z : jsstring) :
  ltb x y = true -> ltb y z = true -> ltb x z = true.
Proof.
  revert y z; induction x as [|a x IH]; intros [|b y] [|c z]; simpl;
    try congruence.
  destruct (a <? b) eqn:Hab, (b <? a) eqn:Hba, (b <? c) eqn:Hbc,
           (c <? b) eqn:Hcb, (a <? c) eqn:Hac, (c <? a) eqn:Hca;
    try congruence; try (exfalso; lia); eauto.
Qed.

Lemma ltb_connex (x y : jsstring) :
  ltb x y = false -> ltb y x = false -> x = y.
Proof.
  revert y; induction x as [|a x IH]; intros [|b y]; simpl; try congruence.
  destruct (a <? b) eqn:Hab, (b <? a) eqn:Hba; try congruence.
  intros H1 H2; assert (a = b) by lia; subst; f_equal; auto.
Qed.

Lemma ltb_asym (x y : jsstring) : ltb x y = true -> ltb y x = false.
Proof.
  intros H; destruct (ltb y x) eqn:E; [|reflexivity].
  pose proof (ltb_trans _ _ _ H E) as C; now rewrite ltb_irrefl in C.
Qed.

Lemma leS_refl (x : jsstring) : leS x x.
Proof. apply ltb_irrefl. Qed.

Lemma leS_trans (x y z : jsstring) : leS x y -> leS y z -> leS x z.
Proof.
  unfold leS; intros Hxy Hyz.
  destruct (ltb z x) eqn:E; [|reflexivity].
  destruct (ltb y z) eqn:F.
  - now rewrite (ltb_trans _ _ _ F E) in Hxy.
  - rewrite (ltb_connex _ _ F Hyz) in Hxy; congruence.
Qed.

Lemma leS_antisym (x y : jsstring) : leS x y -> leS y x -> x = y.
Proof. unfold leS; intros; now apply ltb_connex. Qed.

Lemma leS_neq_ltS (x y : jsstring) : leS x y -> x <> y -> ltS x y.
Proof.
  unfold leS, ltS; intros H N; destruct (ltb x y) eqn:E; [reflexivity|].
  exfalso; apply N; now apply ltb_connex.
Qed.

Lemma ltS_leS (x y : jsstring) : ltS x y -> leS x y.
Proof. apply ltb_asym. Qed.

(** ** Sorted lists *)

Lemma StronglySorted_snoc {A} (R : A -> A -> Prop) (l : list A) (x : A) :
  StronglySorted R l -> Forall (fun a => R a x) l -> StronglySorted R (l ++ [x]).
Proof.
  induction 1 as [|a l Hl IH Ha]; intros F; simpl.
  - repeat constructor.
  - inversion F; subst; constructor; [now apply IH|].
    apply Forall_app; split; [assumption | now constructor].
Qed.

Lemma StronglySorted_filter {A} (R : A -> A -> Prop) (f : A -> bool) (l : list A) :
  StronglySorted R l -> StronglySorted R (filter f l).
Proof.
  induction 1 as [|a l Hl IH Ha]; simpl; [constructor|].
  destruct (f a); [|assumption].
  constructor; [assumption|].
  rewrite Forall_forall in *; intros x Hx; apply Ha.
  now apply filter_In in Hx.
Qed.

Lemma strict_of_NoDup (l : list jsstring) :
  StronglySorted leS l -> NoDup l -> StronglySorted ltS l.
Proof.
  induction 1 as [|a l Hl IH Ha]; intros N; [constructor|].
  inversion N; subst; constructor; [now apply IH|].
  rewrite Forall_forall in *; intros x Hx.
  apply leS_neq_ltS; [now apply Ha | intros ->; contradiction].
Qed.

Lemma strict_NoDup (l : list jsstring) : StronglySorted ltS l -> NoDup l.
Proof.
  induction 1 as [|a l Hl IH Ha]; constructor; [|assumption].
  intros Hin; rewrite Forall_forall in Ha; specialize (Ha a Hin).
  unfold ltS in Ha; now rewrite ltb_irrefl in Ha.
Qed.

(** A strictly sorted list is determined by its members. *)
Lemma strict_unique (l1 l2 : list jsstring) :
  StronglySorted ltS l1 -> StronglySorted ltS l2 ->
  (forall w, In w l1 <-> In w l2) -> l1 = l2.
Proof.
  intros S1; revert l2; induction S1 as [|a l1 S1 IH Ha]; intros l2 S2 E.
  - destruct l2 as [|b l2]; [reflexivity|].
    exfalso; apply (proj2 (E b)); now left.
  - destruct S2 as [|b l2 S2 Hb].
    + exfalso; apply (proj1 (E a)); now left.
    + rewrite Forall_forall in Ha, Hb.
      assert (a = b) as ->.
      { destruct (proj1 (E a) (or_introl eq_refl)) as [->|Hin]; [reflexivity|].
        destruct (proj2 (E b) (or_introl eq_refl)) as [->|Hin']; [reflexivity|].
        pose proof (Hb _ Hin) as H1; pose proof (Ha _ Hin') as H2.
        apply ltb_asym in H1; unfold ltS in H2; congruence. }
      f_equal; apply IH; [assumption|].
      intros w; split; intros Hw.
      * destruct (proj1 (E w) (or_intror Hw)) as [<-|]; [|assumption].
        specialize (Ha _ Hw); unfold ltS in Ha; now rewrite ltb_irrefl in Ha.
      * destruct (proj2 (E w) (or_intror Hw)) as [<-|]; [|assumption].
        specialize (Hb _ Hw); unfold ltS in Hb; now rewrite ltb_irrefl in Hb.
Qed.

(** ** [sort] *)

Lemma insert_perm (w : jsstring) (a : list jsstring) :
  Permutation (insert w a) (w :: a).
Proof.
  induction a as [|h t IH]; simpl; [reflexivity|].
  destruct (ltb w h); [reflexivity|].
  rewrite IH; apply perm_swap.
Qed.

Lemma sort_perm (a : list jsstring) : Permutation (sort a) a.
Proof.
  induction a as [|w a IH]; simpl; [reflexivity|].
  fold (sort a); rewrite insert_perm; now constructor.
Qed.

Lemma sort_In (a : list jsstring) (w : jsstring) : In w (sort a) <-> In w a.
Proof.
  split; apply Permutation_in; [|symmetry]; apply sort_perm.
Qed.

Lemma insert_sorted (w : jsstring) (a : list jsstring) :
  StronglySorted leS a -> StronglySorted leS (insert w a).
Proof.
  induction 1 as [|h t Ht IH Hh]; simpl; [repeat constructor|].
  destruct (ltb w h) eqn:E.
  - constructor; [now constructor|].
    constructor; [now apply ltS_leS|].
    rewrite Forall_forall in *; intros x Hx.
    apply leS_trans with h; [now apply ltS_leS | now apply Hh].
  - constructor; [assumption|].
    rewrite Forall_forall in *; intros x Hx.
    apply (Permutation_in _ (insert_perm w t)) in Hx as [<-|Hx]; [exact E|auto].
Qed.

Lemma sort_sorted (a : list jsstring) : StronglySorted leS (sort a).
Proof.
  induction a as [|w a IH]; simpl; [constructor | now apply insert_sorted].
Qed.

(** The order fixes the result of sorting: every sorted rearrangement of
    the array is the one [sort] returns. *)
Lemma sort_unique (a b : list jsstring) :
  Permutation b a -> StronglySorted leS b -> b = sort a.
Proof.
  intros P Sb.
  assert (Q : Permutation b (sort a)) by (rewrite P; symmetry; apply sort_perm).
  pose proof (sort_sorted a) as Sa; clear P.
  revert Q Sa; generalize (sort a) as c; clear a.
  induction Sb as [|x b Sb IH Hx]; intros c Q Sc.
  - now apply Permutation_nil in Q.
  - destruct Sc as [|y c Sc Hy]; [symmetry in Q; now apply Permutation_nil in Q|].
    rewrite Forall_forall in Hx, Hy.
    assert (x = y) as ->.
    { apply leS_antisym.
      - destruct (Permutation_in _ (Permutation_sym Q) (or_introl eq_refl))
          as [->|Hin]; [apply leS_refl | now apply Hx].
      - destruct (Permutation_in _ Q (or_introl eq_refl))
          as [->|Hin]; [apply leS_refl | now apply Hy]. }
    f_equal; apply IH; [now apply Permutation_cons_inv in Q | assumption].
Qed.

(** ** [newSet] *)

Lemma setAdd_In (s : list jsstring) (x w : jsstring) :
  In w (setAdd s x) <-> In w s \/ w = x.
Proof.
  unfold setAdd; destruct (includes s x) eqn:E.
  - apply includes_In in E; split; [tauto | intros [H| ->]; assumption].
  - rewrite in_app_iff; simpl; intuition.
Qed.

Lemma fold_setAdd_In (a s : list jsstring) (w : jsstring) :
  In w (fold_left setAdd a s) <-> In w s \/ In w a.
Proof.
  revert s; induction a as [|x a IH]; intros s; simpl; [tauto|].
  rewrite IH, setAdd_In; intuition.
Qed.

Lemma newSet_In (a : list jsstring) (w : jsstring) : In w (newSet a) <-> In w a.
Proof. unfold newSet; rewrite fold_setAdd_In; simpl; tauto. Qed.

Lemma fold_setAdd_sorted (a s : list jsstring) :
  StronglySorted ltS s -> StronglySorted leS a ->
  (forall x y, In x s -> In y a -> leS x y) ->
  StronglySorted ltS (fold_left setAdd a s).
Proof.
  revert s; induction a as [|x a IH]; intros s Ss Sa B; simpl; [assumption|].
  inversion Sa as [|? ? Sa' Hx]; subst; rewrite Forall_forall in Hx.
  apply IH; [|assumption|].
  - unfold setAdd; destruct (includes s x) eqn:E; [assumption|].
    apply includes_false in E.
    apply StronglySorted_snoc; [assumption|].
    rewrite Forall_forall; intros y Hy.
    apply leS_neq_ltS; [apply B; simpl; auto | intros ->; contradiction].
  - intros u v Hu Hv; apply setAdd_In in Hu as [Hu| ->].
    + apply B; simpl; auto.
    + now apply Hx.
Qed.

Lemma newSet_sorted (a : list jsstring) :
  StronglySorted leS a -> StronglySorted ltS (newSet a).
Proof.
  intros Sa; apply fold_setAdd_sorted; [constructor | assumption|].
  intros x y [].
Qed.

Lemma fold_setAdd_NoDup (a s : list jsstring) :
  NoDup s -> NoDup (fold_left setAdd a s).
Proof.
  revert s; induction a as [|x a IH]; intros s N; simpl; [assumption|].
  apply IH; unfold setAdd; destruct (includes s x) eqn:E; [assumption|].
  apply includes_false in E.
  apply NoDup_app; repeat split; auto.
  - repeat constructor; intros [].
  - intros y Hy [<-|[]]; contradiction.
Qed.

Lemma newSet_NoDup (a : list jsstring) : NoDup (newSet a).
Proof. apply fold_setAdd_NoDup; constructor. Qed.

(** ** [removeWords] *)

Lemma removeWords_In (words rm : list jsstring) (w : jsstring) :
  In w (removeWords words rm) <-> In w words /\ ~ In w rm.
Proof.
  unfold removeWords; rewrite filter_In, negb_true_iff, includes_false; tauto.
Qed.

Lemma removeWords_sorted (words rm : list jsstring) :
  StronglySorted ltS words -> StronglySorted ltS (removeWords words rm).
Proof. apply StronglySorted_filter. Qed.

(** ** [split] and [join] *)

Lemma split_not_nil (sep : codeUnit) (s : jsstring) : split sep s <> [].
Proof.
  induction s as [|c r IH]; simpl; [discriminate|].
  destruct (c =? sep); [discriminate|].
  destruct (split sep r); discriminate.
Qed.

Lemma split_cons (sep c : codeUnit) (r : jsstring) :
  c <> sep ->
  exists h t, split sep r = h :: t /\ split sep (c :: r) = (c :: h) :: t.
Proof.
  intros N; simpl; apply Z.eqb_neq in N; rewrite N.
  pose proof (split_not_nil sep r) as K.
  destruct (split sep r) as [|h t]; [congruence|].
  now exists h, t.
Qed.

Lemma split_no_sep (sep : codeUnit) (s w : jsstring) :
  In w (split sep s) -> ~ In sep w.
Proof.
  revert w; induction s as [|c r IH]; intros w.
  - intros [<-|[]]; intros [].
  - destruct (Z.eq_dec c sep) as [->|N].
    + simpl; rewrite Z.eqb_refl; intros [<-|H]; [intros [] | now apply IH].
    + destruct (split_cons sep c r N) as (h & t & E & ->).
      rewrite E in IH; intros [<-|H].
      * intros [->|Hin]; [now apply N | apply (IH h); simpl; auto].
      * apply IH; simpl; auto.
Qed.

Lemma split_app (sep : codeUnit) (a b : jsstring) :
  split sep (a ++ sep :: b) = split sep a ++ split sep b.
Proof.
  induction a as [|c a IH].
  - simpl; now rewrite Z.eqb_refl.
  - destruct (Z.eq_dec c sep) as [->|N].
    + simpl; rewrite Z.eqb_refl, IH; reflexivity.
    + destruct (split_cons sep c a N) as (h & t & E & ->).
      simpl; apply Z.eqb_neq in N; rewrite N, IH, E; reflexivity.
Qed.

Lemma split_word (sep : codeUnit) (w : jsstring) :
  ~ In sep w -> split sep w = [w].
Proof.
  induction w as [|c w IH]; intros N; [reflexivity|].
  simpl; destruct (c =? sep) eqn:E.
  - apply Z.eqb_eq in E; subst; exfalso; apply N; now left.
  - rewrite IH; [reflexivity | intros H; apply N; now right].
Qed.

Lemma split_join (sep : codeUnit) (ws : list jsstring) :
  ws <> [] -> Forall (fun w => ~ In sep w) ws -> split sep (join sep ws) = ws.
Proof.
  induction ws as [|w ws IH]; intros N F; [congruence|].
  inversion F; subst.
  destruct ws as [|v ws]; [now apply split_word|].
  change (join sep (w :: v :: ws)) with (w ++ sep :: join sep (v :: ws)).
  rewrite split_app, split_word, IH; auto; discriminate.
Qed.

Lemma nonEmpty_true (w : jsstring) : nonEmpty w = true <-> w <> [].
Proof.
  unfold nonEmpty; rewrite negb_true_iff; destruct w; simpl; split; congruence.
Qed.

(** A newline-joined text of non-empty, newline-free words has no empty line. *)
Lemma join_no_empty_line (ws : list jsstring) :
  Forall (fun w => w <> []) ws -> Forall (fun w => ~ In LF w) ws ->
  (forall t, join LF ws <> LF :: t)
  /\ (forall t, join LF ws <> t ++ [LF])
  /\ (forall a b, join LF ws <> a ++ LF :: LF :: b).
Proof.
  intros NE NL; destruct ws as [|w ws].
  - simpl; repeat split; intros; try discriminate;
      try (intros H; symmetry in H; apply app_eq_nil in H as [_ H]; discriminate).
  - assert (E : split LF (join LF (w :: ws)) = w :: ws)
      by (apply split_join; [discriminate | assumption]).
    assert (K : ~ In [] (split LF (join LF (w :: ws)))).
    { rewrite E; intros H; rewrite Forall_forall in NE; now apply (NE [] H). }
    repeat split; intros; intros H; apply K; rewrite H.
    + simpl; now left.
    + rewrite split_app; apply in_or_app; right; simpl; now left.
    + rewrite split_app; apply in_or_app; right; simpl; now left.
Qed.

(** ** The pipeline *)

Section PipelineFacts.

Variable toLowerCase : jsstring -> jsstring.

Lemma normalize_total (inputText : jsstring) (specialChars : list jsstring) :
  exists n, normalize toLowerCase inputText specialChars = Some n.
Proof. unfold normalize; rewrite removeCharacters_total; eauto. Qed.

Lemma normalize_units (inputText : jsstring) (cs : list codeUnit) :
  normalize toLowerCase inputText (splitUnits cs)
  = Some (filter (fun x => negb (mem x cs)) (toLowerCase (flattenText inputText))).
Proof.
  unfold normalize; now rewrite removeCharacters_units, strip_fold_filter.
Qed.

Lemma extract_normalize (inputText : jsstring)
      (specialChars ignoredWords knownWords : list jsstring) (n : jsstring) :
  normalize toLowerCase inputText specialChars = Some n ->
  extract toLowerCase inputText specialChars ignoredWords knownWords
  = Some (wordsOf n ignoredWords knownWords).
Proof. unfold extract; now intros ->. Qed.

End PipelineFacts.

Lemma wordsOf_In (n : jsstring) (ign known : list jsstring) (w : jsstring) :
  In w (wordsOf n ign known)
  <-> In w (split LF n) /\ w <> [] /\ ~ In w ign /\ ~ In w known.
Proof.
  unfold wordsOf; rewrite !removeWords_In, newSet_In, sort_In, filter_In.
  fold (nonEmpty w); rewrite nonEmpty_true; tauto.
Qed.

Lemma wordsOf_sorted (n : jsstring) (ign known : list jsstring) :
  StronglySorted ltS (wordsOf n ign known).
Proof.
  unfold wordsOf; do 2 apply removeWords_sorted.
  apply newSet_sorted, sort_sorted.
Qed.

Lemma wordsOf_nonEmpty (n : jsstring) (ign known : list jsstring) :
  Forall (fun w => w <> []) (wordsOf n ign known).
Proof. rewrite Forall_forall; intros w H; now apply wordsOf_In in H. Qed.

Lemma wordsOf_no_LF (n : jsstring) (ign known : list jsstring) :
  Forall (fun w => ~ In LF w) (wordsOf n ign known).
Proof.
  rewrite Forall_forall; intros w H; apply wordsOf_In in H as [H _].
  now apply split_no_sep in H.
Qed.

Lemma no_members {A} (l : list A) : (forall x, ~ In x l) -> l = [].
Proof.
  destruct l as [|a l]; [reflexivity|]; intros H; exfalso; apply (H a); now left.
Qed.

Lemma sorted_nth (l : list jsstring) (i j : nat) (x y : jsstring) :
  StronglySorted ltS l ->
  nth_error l i = Some x -> nth_error l j = Some y -> (i < j)%nat -> ltS x y.
Proof.
  intros S; revert i j; induction S as [|a l S IH Ha]; intros i j Hi Hj L.
  - destruct i; discriminate.
  - destruct j as [|j]; [lia|]; simpl in Hj.
    destruct i as [|i]; simpl in Hi.
    + injection Hi as ->; rewrite Forall_forall in Ha.
      apply Ha; eapply nth_error_In; eassumption.
    + apply (IH i j); auto; lia.
Qed.

Lemma strict_sorted_le (l : list jsstring) :
  StronglySorted ltS l -> StronglySorted leS l.
Proof.
  induction 1 as [|a l S IH Ha]; constructor; [assumption|].
  eapply Forall_impl; [|exact Ha]; intros x; apply ltS_leS.
Qed.

(** ** [main] *)

(** When the four files exist, [main] returns and has written the joined
    word list to [output.txt], leaving every other file as it was. *)
Lemma main_writes (toLowerCase : jsstring -> jsstring) (w : World)
      (sc ig kn it : jsstring) :
  files w SPECIAL_CHARACTER_FILE_PATH = Some sc ->
  files w IGNORED_WORDS_FILE_PATH = Some ig ->
  files w KNOWN_WORDS_FILE_PATH = Some kn ->
  files w INPUT_FILE_PATH = Some it ->
  exists out w',
    extract toLowerCase it (splitUnits sc) (split LF ig) (split LF kn) = Some out
    /\ main toLowerCase w = (Some tt, w')
    /\ forall p, files w' p
                 = if String.eqb p OUTPUT_FILE_PATH then Some (join LF out)
                   else files w p.
Proof.
  intros Hsc Hig Hkn Hit.
  destruct (normalize_total toLowerCase it (splitUnits sc)) as (n & Hn).
  exists (wordsOf n (split LF ig) (split LF kn)).
  unfold main, getSpecialCharacters, getListOfWords, readTextAsync,
    writeTextAsync, throwing, log, bind, ret.
  unfold normalize in Hn.
  repeat (cbn [files console];
          first [rewrite Hsc | rewrite Hig | rewrite Hkn | rewrite Hit | rewrite Hn]).
  eexists; split; [now apply extract_normalize|].
  split; [reflexivity|]; intros p; reflexivity.
Qed.

(** A run on a small article: punctuation stripped, words lower-cased,
    sorted and deduplicated, the known word removed. *)
Example extract_sample :
  extract asciiLowerCase (str "El gato, el perro. (El) GATO")
          (splitUnits (str ".,()")) [[]] [str "perro"; []]
  = Some [str "el"; str "gato"]
  /\ outputText asciiLowerCase (str "El gato, el perro. (El) GATO")
                (splitUnits (str ".,()")) [[]] [str "perro"; []]
     = Some (str "el" ++ LF :: str "gato").
Proof. split; reflexivity. Qed.

(** ** The reference word list *)

Lemma without_In (excluded words : list jsstring) (w : jsstring) :
  In w (without excluded words) <-> In w words /\ ~ In w excluded.
Proof.
  unfold without; rewrite filter_In.
  destruct (in_dec jsstring_eq_dec w excluded); intuition congruence.
Qed.

Lemma referenceWords_In (n : jsstring) (ign known : list jsstring) (w : jsstring) :
  In w (referenceWords n ign known)
  <-> In w (split LF n) /\ w <> [] /\ ~ In w ign /\ ~ In w known.
Proof.
  unfold referenceWords; rewrite !without_In, sort_In, nodup_In, filter_In.
  destruct (jsstring_eq_dec w []); intuition congruence.
Qed.

Lemma referenceWords_sorted (n : jsstring) (ign known : list jsstring) :
  StronglySorted ltS (referenceWords n ign known).
Proof.
  unfold referenceWords, without; do 2 apply StronglySorted_filter.
  apply strict_of_NoDup; [apply sort_sorted|].
  eapply Permutation_NoDup; [symmetry; apply sort_perm | apply NoDup_nodup].
Qed.

(** * The claims *)

(** C1.  For every input text, special-character list, ignored-word list and
    known-word list, the pipeline produces a word list, and that list is
    sorted in the order of [<] on strings, has no duplicate entry, and
    holds no word of the ignored-word list and no word of the known-word
    list. *)
Theorem extract_sorted_unique_disjoint
        (toLowerCase : jsstring -> jsstring) (inputText : jsstring)
        (specialChars ignoredWords knownWords : list jsstring) :
  exists out,
    extract toLowerCase inputText specialChars ignoredWords knownWords = Some out
    /\ StronglySorted leS out
    /\ NoDup out
    /\ forall w, In w out -> ~ In w ignoredWords /\ ~ In w knownWords.
Proof.
  destruct (normalize_total toLowerCase inputText specialChars) as (n & Hn).
  exists (wordsOf n ignoredWords knownWords).
  pose proof (wordsOf_sorted n ignoredWords knownWords) as S.
  split; [now apply extract_normalize|].
  split; [now apply strict_sorted_le|].
  split; [now apply strict_NoDup|].
  intros w H; apply wordsOf_In in H; tauto.
Qed.

(** C2.  The word list of the pipeline is the reference word list of the
    normalized text: split on line breaks, empty entries discarded,
    deduplicated, sorted, then without the ignored words and without the
    known words, membership being equality of strings. *)
Theorem extract_reference
        (toLowerCase : jsstring -> jsstring) (inputText : jsstring)
        (specialChars ignoredWords knownWords : list jsstring) :
  exists normalized,
    normalize toLowerCase inputText specialChars = Some normalized
    /\ extract toLowerCase inputText specialChars ignoredWords knownWords
       = Some (referenceWords normalized ignoredWords knownWords).
Proof.
  destruct (normalize_total toLowerCase inputText specialChars) as (n & Hn).
  exists n; split; [assumption|].
  rewrite (extract_normalize _ _ _ _ _ _ Hn); f_equal.
  apply strict_unique.
  - apply wordsOf_sorted.
  - apply referenceWords_sorted.
  - intros w; now rewrite wordsOf_In, referenceWords_In.
Qed.

(** C3.  Round trip: when a run has produced the word list [out], a second
    run on the same input text, special characters and ignored words, with
    a known-word list whose members are those of the first known-word list
    together with the words of [out], produces the empty word list and
    writes the empty text. *)
Theorem extract_round_trip
        (toLowerCase : jsstring -> jsstring) (inputText : jsstring)
        (specialChars ignoredWords knownWords out merged : list jsstring)
        (Hrun : extract toLowerCase inputText specialChars ignoredWords knownWords
                = Some out)
        (Hmerged : forall w, In w merged <-> In w knownWords \/ In w out) :
  extract toLowerCase inputText specialChars ignoredWords merged = Some []
  /\ outputText toLowerCase inputText specialChars ignoredWords merged = Some [].
Proof.
  destruct (normalize_total toLowerCase inputText specialChars) as (n & Hn).
  rewrite (extract_normalize _ _ _ _ _ _ Hn) in Hrun; injection Hrun as <-.
  assert (E : extract toLowerCase inputText specialChars ignoredWords merged
              = Some []).
  { rewrite (extract_normalize _ _ _ _ _ _ Hn); f_equal.
    apply no_members; intros w H.
    apply wordsOf_In in H as (Hs & Hne & Hi & Hm).
    apply Hm, Hmerged.
    destruct (in_dec jsstring_eq_dec w knownWords) as [|Hk]; [now left|].
    right; apply wordsOf_In; tauto. }
  split; [assumption|]; unfold outputText; now rewrite E.
Qed.

Lemma extract_round_trip_witness :
  extract asciiLowerCase (str "El gato y el perro") (splitUnits (str ".,"))
          [[]] [str "el"; str "y"; []; str "gato"; str "perro"]
  = Some []
  /\ outputText asciiLowerCase (str "El gato y el perro") (splitUnits (str ".,"))
                [[]] [str "el"; str "y"; []; str "gato"; str "perro"]
     = Some [].
Proof.
  apply (extract_round_trip asciiLowerCase (str "El gato y el perro")
           (splitUnits (str ".,")) [[]] [str "el"; str "y"; []]
           [str "gato"; str "perro"]).
  - vm_compute; reflexivity.
  - intros w; simpl; tauto.
Defined.

(** C4, as the code has it.  Flattening turns every space (U+0020) into a
    line break and keeps every other code unit, tabs and the other white
    space included, so that no space is left in the flattened text. *)
Theorem flattenText_spaces (input : jsstring) :
  flattenText input = map (fun c => if c =? SPACE then LF else c) input
  /\ ~ In SPACE (flattenText input).
Proof.
  split; [apply flattenText_map|].
  rewrite flattenText_map, in_map_iff; intros (c & E & _).
  unfold flattenUnit in E; destruct (c =? SPACE) eqn:F; [discriminate|].
  apply Z.eqb_neq in F; congruence.
Qed.

(** C4 fails for a tab: in "a<TAB>b" the tab between the two words stays
    and no line break appears. *)
Lemma flattenText_keeps_tab :
  flattenText [97; 9; 98] = [97; 9; 98]
  /\ In 9 (flattenText [97; 9; 98])
  /\ ~ In LF (flattenText [97; 9; 98]).
Proof.
  split; [reflexivity|]; split; [vm_compute; tauto|].
  vm_compute; intros [H|[H|[H|[]]]]; discriminate.
Qed.

(** C5.  Stripping with the special characters [cs] (one single-unit string
    per character, as [split('')] yields them) removes the characters one
    at a time in list order, each time deleting exactly the code units
    equal to the character; the result is the text without the units that
    are in [cs], every other unit kept in place; and every character, a
    syntax character of patterns or not, compiles to the pattern matching
    that one character. *)
Theorem removeCharacters_literal (text : jsstring) (cs : list codeUnit) :
  removeCharacters text (splitUnits cs)
  = Some (fold_left (fun t c => filter (fun x => negb (x =? c)) t) cs text)
  /\ removeCharacters text (splitUnits cs)
     = Some (filter (fun x => negb (mem x cs)) text)
  /\ forall c, buildRegEx [c] = Some [Char c].
Proof.
  split; [apply removeCharacters_units|].
  split; [rewrite removeCharacters_units; f_equal; apply strip_fold_filter|].
  intros c; apply (buildRegEx_literal [c]).
Qed.

(** C6, as the code has it.  The word list is ordered by [<] on strings,
    which compares UTF-16 code units: of two distinct words of the output,
    the one that is smaller in code-unit order comes first. *)
Theorem extract_code_unit_order
        (toLowerCase : jsstring -> jsstring) (inputText : jsstring)
        (specialChars ignoredWords knownWords : list jsstring) :
  exists out,
    extract toLowerCase inputText specialChars ignoredWords knownWords = Some out
    /\ orderedBy ltb out.
Proof.
  destruct (normalize_total toLowerCase inputText specialChars) as (n & Hn).
  exists (wordsOf n ignoredWords knownWords).
  split; [now apply extract_normalize|].
  pose proof (wordsOf_sorted n ignoredWords knownWords) as S.
  intros i j x y Hi Hj Hxy L.
  destruct (Nat.lt_trichotomy i j) as [|[->|G]]; [assumption| |].
  - rewrite Hi in Hj; congruence.
  - pose proof (sorted_nth _ _ _ _ _ S Hj Hi G) as C.
    apply ltb_asym in C; congruence.
Qed.

(** C6 fails on code points: U+FF5E is below U+1F600, but its one code
    unit FF5E is above the surrogate D83D, so the word U+1F600 comes
    first in the output. *)
Lemma extract_not_code_point_order :
  extract asciiLowerCase [65374; 32; 55357; 56832] [] [[]] [[]]
  = Some [[55357; 56832]; [65374]]
  /\ codePointLtb [65374] [55357; 56832] = true
  /\ ~ orderedBy codePointLtb [[55357; 56832]; [65374]].
Proof.
  split; [reflexivity|]; split; [reflexivity|].
  intros H.
  assert (C : (1 < 0)%nat).
  { apply (H 1%nat 0%nat [65374] [55357; 56832]);
      [reflexivity | reflexivity | discriminate | reflexivity]. }
  lia.
Qed.

(** C7.  Two runs of [main] in working directories that hold the four
    input files with the same contents both return, and both leave the
    same text in [output.txt], whatever else the directories hold. *)
Theorem main_deterministic
        (toLowerCase : jsstring -> jsstring) (w1 w2 : World)
        (Hsame : forall p, In p inputPaths ->
                           files w1 p <> None /\ files w1 p = files w2 p) :
  exists text w1' w2',
    main toLowerCase w1 = (Some tt, w1')
    /\ main toLowerCase w2 = (Some tt, w2')
    /\ files w1' OUTPUT_FILE_PATH = Some text
    /\ files w2' OUTPUT_FILE_PATH = Some text.
Proof.
  assert (R : forall p, In p inputPaths ->
                        exists t, files w1 p = Some t /\ files w2 p = Some t).
  { intros p Hp; destruct (Hsame p Hp) as [N E].
    destruct (files w1 p) as [t|] eqn:F; [|congruence].
    exists t; split; congruence. }
  destruct (R SPECIAL_CHARACTER_FILE_PATH) as (sc & A1 & B1); [simpl; tauto|].
  destruct (R IGNORED_WORDS_FILE_PATH) as (ig & A2 & B2); [simpl; tauto|].
  destruct (R KNOWN_WORDS_FILE_PATH) as (kn & A3 & B3); [simpl; tauto|].
  destruct (R INPUT_FILE_PATH) as (it & A4 & B4); [simpl; tauto|].
  destruct (main_writes toLowerCase w1 sc ig kn it A1 A2 A3 A4)
    as (out1 & w1' & E1 & M1 & F1).
  destruct (main_writes toLowerCase w2 sc ig kn it B1 B2 B3 B4)
    as (out2 & w2' & E2 & M2 & F2).
  rewrite E1 in E2; injection E2 as <-.
  exists (join LF out1), w1', w2'.
  repeat split; try assumption; [rewrite F1 | rewrite F2]; reflexivity.
Qed.

Lemma main_deterministic_witness :
  exists text w1' w2',
    main asciiLowerCase sampleWorld1 = (Some tt, w1')
    /\ main asciiLowerCase sampleWorld2 = (Some tt, w2')
    /\ files w1' OUTPUT_FILE_PATH = Some text
    /\ files w2' OUTPUT_FILE_PATH = Some text.
Proof.
  apply (main_deterministic asciiLowerCase sampleWorld1 sampleWorld2).
  intros p [<-|[<-|[<-|[<-|[]]]]]; split; vm_compute;
    first [discriminate | reflexivity].
Defined.

(** C8.  Every word of the output list is non-empty; the text written is
    the words joined by line breaks, so it does not begin with a line
    break, does not end with one, and has no two line breaks in a row;
    and it is the empty text when the word list is empty. *)
Theorem outputText_no_blank_line
        (toLowerCase : jsstring -> jsstring) (inputText : jsstring)
        (specialChars ignoredWords knownWords : list jsstring) :
  exists out text,
    extract toLowerCase inputText specialChars ignoredWords knownWords = Some out
    /\ outputText toLowerCase inputText specialChars ignoredWords knownWords
       = Some text
    /\ Forall (fun w => w <> []) out
    /\ (forall t, text <> LF :: t)
    /\ (forall t, text <> t ++ [LF])
    /\ (forall a b, text <> a ++ LF :: LF :: b)
    /\ (out = [] -> text = []).
Proof.
  destruct (normalize_total toLowerCase inputText specialChars) as (n & Hn).
  pose proof (extract_normalize _ _ _ ignoredWords knownWords _ Hn) as E.
  exists (wordsOf n ignoredWords knownWords),
         (join LF (wordsOf n ignoredWords knownWords)).
  pose proof (wordsOf_nonEmpty n ignoredWords knownWords) as NE.
  pose proof (wordsOf_no_LF n ignoredWords knownWords) as NL.
  destruct (join_no_empty_line _ NE NL) as (J1 & J2 & J3).
  unfold outputText; rewrite E; simpl.
  repeat split; try assumption.
  now intros ->.
Qed.

(** C9, as the code has it.  When the special characters include the line
    break, no line break is left in the normalized text, which is then a
    single piece; the output holds that piece as its only word, and holds
    no word at all when the piece is empty or is an ignored or a known
    word. *)
Theorem newline_special_collapses
        (toLowerCase : jsstring -> jsstring) (inputText sc : jsstring)
        (ignoredWords knownWords : list jsstring)
        (Hnl : In LF sc) :
  exists n,
    normalize toLowerCase inputText (splitUnits sc) = Some n
    /\ ~ In LF n
    /\ split LF n = [n]
    /\ extract toLowerCase inputText (splitUnits sc) ignoredWords knownWords
       = Some (if nonEmpty n && negb (includes ignoredWords n)
                  && negb (includes knownWords n)
               then [n] else []).
Proof.
  pose proof (normalize_units toLowerCase inputText sc) as Hn.
  set (n := filter _ _) in Hn; exists n.
  assert (N : ~ In LF n).
  { unfold n; rewrite filter_In, negb_true_iff; intros [_ H].
    apply mem_In in Hnl; congruence. }
  pose proof (split_word LF n N) as Hs.
  repeat split; try assumption.
  rewrite (extract_normalize _ _ _ _ _ _ Hn); f_equal.
  unfold wordsOf; rewrite Hs; cbn [filter]; fold (nonEmpty n).
  destruct (nonEmpty n); [|reflexivity].
  cbn [sort fold_right insert newSet fold_left setAdd includes existsb app
       removeWords filter andb].
  fold (includes ignoredWords n).
  destruct (includes ignoredWords n); [reflexivity|].
  cbn [negb filter]; fold (includes knownWords n).
  destruct (includes knownWords n); reflexivity.
Qed.

Lemma newline_special_collapses_witness :
  exists n,
    normalize asciiLowerCase (str "El gato") (splitUnits (str "," ++ [LF])) = Some n
    /\ ~ In LF n
    /\ split LF n = [n]
    /\ extract asciiLowerCase (str "El gato") (splitUnits (str "," ++ [LF]))
               [[]] [str "gato"]
       = Some (if nonEmpty n && negb (includes [[]] n)
                  && negb (includes [str "gato"] n)
               then [n] else []).
Proof.
  apply (newline_special_collapses asciiLowerCase (str "El gato")
           (str "," ++ [LF]) [[]] [str "gato"]).
  simpl; tauto.
Defined.

(** C9 fails when the collapsed text is a known word: with the line break
    as the one special character, "el gato" collapses to "elgato", which
    the known-word list removes, and the output holds no word. *)
Lemma newline_special_no_word :
  In LF [LF]
  /\ normalize asciiLowerCase (str "el gato") (splitUnits [LF])
     = Some (str "elgato")
  /\ extract asciiLowerCase (str "el gato") (splitUnits [LF]) [[]] [str "elgato"]
     = Some [].
Proof. split; [simpl; tauto|]; split; reflexivity. Qed.

Lemma removeWords_nonEmpty (words rm : list jsstring) :
  Forall (fun w => w <> []) words ->
  removeWords words (filter nonEmpty rm) = removeWords words rm.
Proof.
  intros F; unfold removeWords; apply filter_ext_in; intros w Hw.
  rewrite Forall_forall in F; specialize (F w Hw); f_equal.
  apply eq_true_iff_eq; rewrite !includes_In, filter_In, nonEmpty_true; tauto.
Qed.

(** C10.  A word file that ends with a line break, or has a blank line,
    yields an empty entry; and empty entries in the ignored-word and
    known-word lists remove nothing: the pipeline produces the same word
    list with them as without them. *)
Theorem empty_entries_harmless :
  (forall s, In [] (split LF (s ++ [LF])))
  /\ (forall a b, In [] (split LF (a ++ LF :: LF :: b)))
  /\ forall (toLowerCase : jsstring -> jsstring) (inputText : jsstring)
            (specialChars ignoredWords knownWords : list jsstring),
      extract toLowerCase inputText specialChars ignoredWords knownWords
      = extract toLowerCase inputText specialChars
                (filter nonEmpty ignoredWords) (filter nonEmpty knownWords).
Proof.
  split; [|split].
  - intros s; rewrite split_app; apply in_or_app; right; simpl; now left.
  - intros a b; rewrite split_app; apply in_or_app; right; simpl; now left.
  - intros toLowerCase inputText specialChars ignoredWords knownWords.
    destruct (normalize_total toLowerCase inputText specialChars) as (n & Hn).
    rewrite !(extract_normalize _ _ _ _ _ _ Hn); f_equal.
    unfold wordsOf.
    set (ws := newSet _).
    assert (F : Forall (fun w => w <> []) ws).
    { rewrite Forall_forall; intros w Hw; unfold ws in Hw.
      rewrite newSet_In, sort_In, filter_In in Hw.
      now apply nonEmpty_true. }
    rewrite (removeWords_nonEmpty ws ignoredWords F).
    symmetry; apply removeWords_nonEmpty.
    rewrite Forall_forall in *; intros w Hw; apply removeWords_In in Hw.
    now apply F.
Qed.

(** * Further properties of the code *)

(** ** [main] and the working directory *)

(** When one of the four files is missing, [main] throws at the read and
    the files are as they were. *)
Lemma main_throws (toLowerCase : jsstring -> jsstring) (w : World) :
  (exists p, In p inputPaths /\ files w p = None) ->
  exists con, main toLowerCase w = (None, mkWorld (files w) con).
Proof.
  intros (p & Hp & Hnone).
  unfold main, getSpecialCharacters, getListOfWords, readTextAsync,
    writeTextAsync, throwing, log, bind, ret.
  cbn [files console].
  destruct (files w SPECIAL_CHARACTER_FILE_PATH) as [sc|] eqn:E1;
    [|eexists; reflexivity].
  cbn [files console].
  destruct (files w IGNORED_WORDS_FILE_PATH) as [ig|] eqn:E2;
    [|eexists; reflexivity].
  cbn [files console].
  destruct (files w KNOWN_WORDS_FILE_PATH) as [kn|] eqn:E3;
    [|eexists; reflexivity].
  cbn [files console].
  destruct (files w INPUT_FILE_PATH) as [it|] eqn:E4;
    [|eexists; reflexivity].
  exfalso; destruct Hp as [<-|[<-|[<-|[<-|[]]]]]; congruence.
Qed.

Lemma main_returns_files (toLowerCase : jsstring -> jsstring) (w : World) :
  fst (main toLowerCase w) = Some tt ->
  exists sc ig kn it,
    files w SPECIAL_CHARACTER_FILE_PATH = Some sc
    /\ files w IGNORED_WORDS_FILE_PATH = Some ig
    /\ files w KNOWN_WORDS_FILE_PATH = Some kn
    /\ files w INPUT_FILE_PATH = Some it.
Proof.
  intros H.
  assert (K : forall p, In p inputPaths -> files w p <> None).
  { intros p Hp N.
    destruct (main_throws toLowerCase w) as (con & E); [now exists p|].
    rewrite E in H; discriminate. }
  destruct (files w SPECIAL_CHARACTER_FILE_PATH) as [sc|] eqn:E1;
    [|exfalso; apply (K SPECIAL_CHARACTER_FILE_PATH); [simpl; tauto | assumption]].
  destruct (files w IGNORED_WORDS_FILE_PATH) as [ig|] eqn:E2;
    [|exfalso; apply (K IGNORED_WORDS_FILE_PATH); [simpl; tauto | assumption]].
  destruct (files w KNOWN_WORDS_FILE_PATH) as [kn|] eqn:E3;
    [|exfalso; apply (K KNOWN_WORDS_FILE_PATH); [simpl; tauto | assumption]].
  destruct (files w INPUT_FILE_PATH) as [it|] eqn:E4;
    [|exfalso; apply (K INPUT_FILE_PATH); [simpl; tauto | assumption]].
  now exists sc, ig, kn, it.
Qed.


(** X2.  A run that throws has written nothing: when one of the input
    files is missing, every file, [output.txt] included, is as it was. *)
Theorem main_failure_keeps_files
        (toLowerCase : jsstring -> jsstring) (w : World) (missing : string)
        (Hin : In missing inputPaths) (Hnone : files w missing = None) :
  fst (main toLowerCase w) = None
  /\ forall p, files (snd (main toLowerCase w)) p = files w p.
Proof.
  destruct (main_throws toLowerCase w) as (con & E); [now exists missing|].
  rewrite E; split; reflexivity.
Qed.

Lemma main_failure_keeps_files_witness :
  fst (main asciiLowerCase
            (mkWorld (fun p => if String.eqb p INPUT_FILE_PATH then None
                               else sampleFiles (str "viejo") p) [])) = None
  /\ forall p,
      files (snd (main asciiLowerCase
                       (mkWorld (fun p => if String.eqb p INPUT_FILE_PATH then None
                                          else sampleFiles (str "viejo") p) []))) p
      = files (mkWorld (fun p => if String.eqb p INPUT_FILE_PATH then None
                                 else sampleFiles (str "viejo") p) []) p.
Proof.
  apply (main_failure_keeps_files asciiLowerCase _ INPUT_FILE_PATH).
  - simpl; tauto.
  - reflexivity.
Defined.

(** X3.  [main] writes no file but [output.txt]: whether it returns or
    throws, every other path holds afterwards what it held before. *)
Theorem main_only_writes_output
        (toLowerCase : jsstring -> jsstring) (w : World) (p : string)
        (Hp : p <> OUTPUT_FILE_PATH) :
  files (snd (main toLowerCase w)) p = files w p.
Proof.
  destruct (fst (main toLowerCase w)) as [[]|] eqn:E.
  - destruct (main_returns_files toLowerCase w E) as (sc & ig & kn & it & A1 & A2 & A3 & A4).
    destruct (main_writes toLowerCase w sc ig kn it A1 A2 A3 A4)
      as (out & w' & _ & M & F).
    rewrite M; cbn [snd]; rewrite F.
    apply String.eqb_neq in Hp; now rewrite Hp.
  - destruct (files w SPECIAL_CHARACTER_FILE_PATH) as [sc|] eqn:A1;
      [|destruct (main_throws toLowerCase w) as (con & ->);
        [exists SPECIAL_CHARACTER_FILE_PATH; simpl; tauto | reflexivity]].
    destruct (files w IGNORED_WORDS_FILE_PATH) as [ig|] eqn:A2;
      [|destruct (main_throws toLowerCase w) as (con & ->);
        [exists IGNORED_WORDS_FILE_PATH; simpl; tauto | reflexivity]].
    destruct (files w KNOWN_WORDS_FILE_PATH) as [kn|] eqn:A3;
      [|destruct (main_throws toLowerCase w) as (con & ->);
        [exists KNOWN_WORDS_FILE_PATH; simpl; tauto | reflexivity]].
    destruct (files w INPUT_FILE_PATH) as [it|] eqn:A4;
      [|destruct (main_throws toLowerCase w) as (con & ->);
        [exists INPUT_FILE_PATH; simpl; tauto | reflexivity]].
    destruct (main_writes toLowerCase w sc ig kn it A1 A2 A3 A4)
      as (out & w' & _ & M & _).
    rewrite M in E; discriminate.
Qed.

Lemma main_only_writes_output_witness :
  files (snd (main asciiLowerCase sampleWorld2)) "notes.txt"
  = files sampleWorld2 "notes.txt".
Proof.
  apply (main_only_writes_output asciiLowerCase sampleWorld2 "notes.txt").
  discriminate.
Defined.

(** X4.  Running [main] again right after a run that returned changes
    nothing: the second run returns too and leaves every file,
    [output.txt] included, as the first run left it. *)
Theorem main_rerun_stable
        (toLowerCase : jsstring -> jsstring) (w : World)
        (Hrun : fst (main toLowerCase w) = Some tt) :
  fst (main toLowerCase (snd (main toLowerCase w))) = Some tt
  /\ forall p, files (snd (main toLowerCase (snd (main toLowerCase w)))) p
               = files (snd (main toLowerCase w)) p.
Proof.
  destruct (main_returns_files toLowerCase w Hrun)
    as (sc & ig & kn & it & A1 & A2 & A3 & A4).
  destruct (main_writes toLowerCase w sc ig kn it A1 A2 A3 A4)
    as (out & w1 & E & M & F).
  rewrite M; cbn [snd].
  assert (B1 : files w1 SPECIAL_CHARACTER_FILE_PATH = Some sc)
    by (rewrite F; exact A1).
  assert (B2 : files w1 IGNORED_WORDS_FILE_PATH = Some ig)
    by (rewrite F; exact A2).
  assert (B3 : files w1 KNOWN_WORDS_FILE_PATH = Some kn)
    by (rewrite F; exact A3).
  assert (B4 : files w1 INPUT_FILE_PATH = Some it)
    by (rewrite F; exact A4).
  destruct (main_writes toLowerCase w1 sc ig kn it B1 B2 B3 B4)
    as (out2 & w2 & E2 & M2 & F2).
  rewrite E in E2; injection E2 as <-.
  rewrite M2; split; [reflexivity|]; intros p; cbn [snd].
  rewrite F2, F; now destruct (String.eqb p OUTPUT_FILE_PATH).
Qed.

Lemma main_rerun_stable_witness :
  fst (main asciiLowerCase (snd (main asciiLowerCase sampleWorld1))) = Some tt
  /\ forall p,
      files (snd (main asciiLowerCase (snd (main asciiLowerCase sampleWorld1)))) p
      = files (snd (main asciiLowerCase sampleWorld1)) p.
Proof.
  apply (main_rerun_stable asciiLowerCase sampleWorld1).
  vm_compute; reflexivity.
Defined.



(** ** The word list *)

Lemma split_units (sep : codeUnit) (s w : jsstring) (c : codeUnit) :
  In w (split sep s) -> In c w -> In c s.
Proof.
  revert w; induction s as [|x r IH]; intros w.
  - intros [<-|[]] [].
  - destruct (Z.eq_dec x sep) as [->|N].
    + simpl; rewrite Z.eqb_refl; intros [<-|H] Hc; [destruct Hc|].
      right; now apply (IH w).
    + destruct (split_cons sep x r N) as (h & t & E & ->).
      rewrite E in IH; intros [<-|H] Hc.
      * destruct Hc as [->|Hc]; [now left | right; apply (IH h); simpl; auto].
      * right; apply (IH w); simpl; auto.
Qed.

Lemma split_all_sep (sep : codeUnit) (s w : jsstring) :
  Forall (fun c => c = sep) s -> In w (split sep s) -> w = [].
Proof.
  intros F Hw; destruct w as [|c w]; [reflexivity|].
  exfalso; apply (split_no_sep sep s _ Hw).
  rewrite Forall_forall in F; left; apply F.
  apply (split_units sep s _ c Hw); now left.
Qed.

(** X6.  The members of the word list, exactly: a word is in the output
    if and only if it is a non-empty line of the normalized text and is in
    neither the ignored-word list nor the known-word list.  No such line
    is lost. *)
Theorem extract_members
        (toLowerCase : jsstring -> jsstring) (inputText : jsstring)
        (specialChars ignoredWords knownWords : list jsstring) :
  exists n out,
    normalize toLowerCase inputText specialChars = Some n
    /\ extract toLowerCase inputText specialChars ignoredWords knownWords = Some out
    /\ forall w, In w out
                 <-> In w (split LF n) /\ w <> []
                     /\ ~ In w ignoredWords /\ ~ In w knownWords.
Proof.
  destruct (normalize_total toLowerCase inputText specialChars) as (n & Hn).
  exists n, (wordsOf n ignoredWords knownWords).
  split; [assumption|]; split; [now apply extract_normalize|].
  intros w; apply wordsOf_In.
Qed.

(** X7.  Only the union of the two exclusion lists matters: swapping the
    ignored-word list and the known-word list, or putting all their words
    in one list, gives the same word list. *)
Theorem extract_exclusions_merge
        (toLowerCase : jsstring -> jsstring) (inputText : jsstring)
        (specialChars ignoredWords knownWords : list jsstring) :
  extract toLowerCase inputText specialChars ignoredWords knownWords
  = extract toLowerCase inputText specialChars knownWords ignoredWords
  /\ extract toLowerCase inputText specialChars ignoredWords knownWords
     = extract toLowerCase inputText specialChars (ignoredWords ++ knownWords) [].
Proof.
  destruct (normalize_total toLowerCase inputText specialChars) as (n & Hn).
  rewrite !(extract_normalize _ _ _ _ _ _ Hn).
  split; f_equal; apply strict_unique; try apply wordsOf_sorted;
    intros w; rewrite !wordsOf_In, ?in_app_iff; simpl; tauto.
Qed.

(** X8.  Knowing more words only removes words: with a known-word list
    that contains the old one, the new word list is the old word list
    without the words of the new known-word list, in the same order. *)
Theorem extract_more_known
        (toLowerCase : jsstring -> jsstring) (inputText : jsstring)
        (specialChars ignoredWords knownWords knownWords' out : list jsstring)
        (Hrun : extract toLowerCase inputText specialChars ignoredWords knownWords
                = Some out)
        (Hmore : forall w, In w knownWords -> In w knownWords') :
  extract toLowerCase inputText specialChars ignoredWords knownWords'
  = Some (removeWords out knownWords').
Proof.
  destruct (normalize_total toLowerCase inputText specialChars) as (n & Hn).
  rewrite (extract_normalize _ _ _ _ _ _ Hn) in Hrun; injection Hrun as <-.
  rewrite (extract_normalize _ _ _ _ _ _ Hn); f_equal.
  apply strict_unique.
  - apply wordsOf_sorted.
  - apply removeWords_sorted, wordsOf_sorted.
  - intros w; rewrite removeWords_In, !wordsOf_In.
    specialize (Hmore w); tauto.
Qed.

Lemma extract_more_known_witness :
  extract asciiLowerCase (str "el gato y el perro") [] [[]] [str "el"; str "y"]
  = Some (removeWords [str "gato"; str "perro"; str "y"] [str "el"; str "y"]).
Proof.
  apply (extract_more_known asciiLowerCase (str "el gato y el perro") [] [[]]
           [str "el"] [str "el"; str "y"]).
  - vm_compute; reflexivity.
  - intros w; simpl; tauto.
Defined.

(** X9.  No special character reaches the output: with the special
    characters [cs] of the file, no output word holds a line break or a
    code unit of [cs], and every code unit of an output word occurs in the
    flattened, lower-cased input. *)
Theorem extract_words_clean
        (toLowerCase : jsstring -> jsstring) (inputText cs : jsstring)
        (ignoredWords knownWords : list jsstring) :
  exists out,
    extract toLowerCase inputText (splitUnits cs) ignoredWords knownWords = Some out
    /\ forall w c, In w out -> In c w ->
                   c <> LF /\ ~ In c cs
                   /\ In c (toLowerCase (flattenText inputText)).
Proof.
  pose proof (normalize_units toLowerCase inputText cs) as Hn.
  eexists; split; [apply (extract_normalize _ _ _ _ _ _ Hn)|].
  intros w c Hw Hc; apply wordsOf_In in Hw as (Hs & _).
  split; [intros ->; now apply (split_no_sep LF _ w Hs)|].
  pose proof (split_units LF _ w c Hs Hc) as Hin.
  apply filter_In in Hin as [Hin Hm]; split; [|assumption].
  apply negb_true_iff in Hm; rewrite <- mem_In; congruence.
Qed.

(** X10.  The word list depends only on which non-empty lines the
    normalized text has: two texts with the same non-empty lines, in any
    order and any number of times, give the same word list. *)
Theorem wordsOf_same_lines
        (n1 n2 : jsstring) (ignoredWords knownWords : list jsstring)
        (Hlines : forall w, w <> [] -> (In w (split LF n1) <-> In w (split LF n2))) :
  wordsOf n1 ignoredWords knownWords = wordsOf n2 ignoredWords knownWords.
Proof.
  apply strict_unique; try apply wordsOf_sorted.
  intros w; rewrite !wordsOf_In; specialize (Hlines w); tauto.
Qed.

Lemma wordsOf_same_lines_witness :
  wordsOf (str "b" ++ LF :: str "a" ++ LF :: LF :: str "b") [] [[]]
  = wordsOf (str "a" ++ LF :: str "b") [] [[]].
Proof.
  apply (wordsOf_same_lines (str "b" ++ LF :: str "a" ++ LF :: LF :: str "b")
                            (str "a" ++ LF :: str "b") [] [[]]).
  intros w Hw; vm_compute; split; intros H;
    repeat (destruct H as [<-|H];
            [first [now exfalso; apply Hw | auto 8]|]);
    destruct H.
Defined.

(** X11.  An input with no word gives an empty output: when the flattened,
    lower-cased input holds nothing but line breaks and special
    characters, the word list is empty and the text written is empty. *)
Theorem extract_blank_input
        (toLowerCase : jsstring -> jsstring) (inputText cs : jsstring)
        (ignoredWords knownWords : list jsstring)
        (Hblank : Forall (fun c => c = LF \/ In c cs)
                         (toLowerCase (flattenText inputText))) :
  extract toLowerCase inputText (splitUnits cs) ignoredWords knownWords = Some []
  /\ outputText toLowerCase inputText (splitUnits cs) ignoredWords knownWords
     = Some [].
Proof.
  pose proof (normalize_units toLowerCase inputText cs) as Hn.
  assert (E : extract toLowerCase inputText (splitUnits cs) ignoredWords knownWords
              = Some []).
  { rewrite (extract_normalize _ _ _ _ _ _ Hn); f_equal.
    apply no_members; intros w Hw; apply wordsOf_In in Hw as (Hs & Hne & _).
    apply Hne; eapply split_all_sep; [|exact Hs].
    rewrite Forall_forall in *; intros c Hc.
    apply filter_In in Hc as [Hc Hm]; apply negb_true_iff in Hm.
    destruct (Hblank c Hc) as [|Hin]; [assumption|].
    apply mem_In in Hin; congruence. }
  split; [assumption|]; unfold outputText; now rewrite E.
Qed.

Lemma extract_blank_input_witness :
  extract asciiLowerCase (str " , ." ++ [LF]) (splitUnits (str ".,")) [[]] [[]]
  = Some []
  /\ outputText asciiLowerCase (str " , ." ++ [LF]) (splitUnits (str ".,"))
                [[]] [[]]
     = Some [].
Proof.
  apply (extract_blank_input asciiLowerCase (str " , ." ++ [LF]) (str ".,")).
  vm_compute; repeat constructor; tauto.
Defined.

(** ** Stripping and the patterns *)

Lemma replaceFrom_deletes (r : regex) (s : jsstring) :
  forall (skip : nat) (b : bool),
    (List.length (replaceFrom r [] skip b s) <= List.length s)%nat
    /\ forall x, In x (replaceFrom r [] skip b s) -> In x s.
Proof.
  induction s as [|c s IH]; intros skip b.
  - simpl; destruct skip; [destruct (matchHere r b [])|]; simpl; split;
      auto; lia.
  - cbn [replaceFrom]; destruct skip as [|k].
    + destruct (matchHere r b (c :: s)) as [[|k]|]; cbn [expand flat_map app].
      * destruct (IH O false) as [L I]; split; [simpl; lia|].
        intros x [->|H]; [now left | right; auto].
      * destruct (IH k false) as [L I]; split; [simpl; lia|].
        intros x H; right; auto.
      * destruct (IH O false) as [L I]; split; [simpl; lia|].
        intros x [->|H]; [now left | right; auto].
    + destruct (IH k false) as [L I]; split; [simpl; lia|].
      intros x H; right; auto.
Qed.

(** X12.  [removeCharacters] never throws and only deletes, whatever
    strings the array holds (longer than one unit, empty, full of pattern
    syntax): the result is no longer than the text and holds only code
    units of the text. *)
Theorem removeCharacters_only_deletes (text : jsstring) (chars : list jsstring) :
  exists out,
    removeCharacters text chars = Some out
    /\ (List.length out <= List.length text)%nat
    /\ forall x, In x out -> In x text.
Proof.
  rewrite removeCharacters_total; eexists; split; [reflexivity|].
  revert text; induction chars as [|e chars IH]; intros text; simpl.
  - split; auto.
  - destruct (IH (replace (map Char e) [] text)) as [L I].
    destruct (replaceFrom_deletes (map Char e) text O true) as [L' I'].
    fold (replace (map Char e) [] text) in L', I'.
    split; [lia | auto].
Qed.

(** X13.  For single characters the order of the list and repetitions in
    it do not matter: two special-character files with the same
    characters strip a text to the same result. *)
Theorem removeCharacters_same_characters
        (text cs1 cs2 : jsstring)
        (Hsame : forall c, In c cs1 <-> In c cs2) :
  removeCharacters text (splitUnits cs1) = removeCharacters text (splitUnits cs2).
Proof.
  rewrite !removeCharacters_units, !strip_fold_filter; f_equal.
  apply filter_ext; intros x; f_equal; apply mem_ext, Hsame.
Qed.

Lemma removeCharacters_same_characters_witness :
  removeCharacters (str "a.b,c.") (splitUnits (str ".,."))
  = removeCharacters (str "a.b,c.") (splitUnits (str ",.")).
Proof.
  apply (removeCharacters_same_characters (str "a.b,c.") (str ".,.") (str ",.")).
  intros c; simpl; tauto.
Defined.

(** X14.  Stripping single characters is idempotent: stripping the
    stripped text again with the same characters changes nothing. *)
Theorem removeCharacters_idempotent (text cs : jsstring) :
  exists out,
    removeCharacters text (splitUnits cs) = Some out
    /\ removeCharacters out (splitUnits cs) = Some out.
Proof.
  rewrite removeCharacters_units, strip_fold_filter; eexists; split;
    [reflexivity|].
  rewrite removeCharacters_units, strip_fold_filter; f_equal.
  induction text as [|x t IH]; simpl; [reflexivity|].
  destruct (negb (mem x cs)) eqn:E; simpl; [rewrite E; f_equal|]; exact IH.
Qed.

Lemma matchHere_literal (e : jsstring) :
  forall (b : bool) (s : jsstring),
    matchHere (map Char e) b s
    = if startsWith e s then Some (List.length e) else None.
Proof.
  induction e as [|a e IH]; intros b s; [reflexivity|].
  destruct s as [|x s]; [reflexivity|].
  cbn [map matchHere startsWith List.length].
  destruct (x =? a); [|reflexivity].
  rewrite IH; cbn [andb]; now destruct (startsWith e s).
Qed.

(** X15.  [buildRegEx] never throws, and the pattern it builds matches
    the expression literally: at any position it matches exactly when the
    text there starts with the expression, and then consumes just the
    expression. *)
Theorem buildRegEx_matches_literally (expression : jsstring) :
  exists r,
    buildRegEx expression = Some r
    /\ forall (atStart : bool) (s : jsstring),
        matchHere r atStart s
        = if startsWith expression s then Some (List.length expression) else None.
Proof.
  exists (map Char expression); split;
    [apply buildRegEx_literal | apply matchHere_literal].
Qed.

Lemma escape_length (e : jsstring) :
  List.length (flat_map escapeUnit e) = (List.length e + List.length (filter isSyntaxCharacter e))%nat.
Proof.
  induction e as [|c e IH]; [reflexivity|].
  cbn [flat_map filter]; rewrite length_app, IH; unfold escapeUnit.
  destruct (isSyntaxCharacter c); simpl; lia.
Qed.

(** X16.  [escapeExpression] adds one backslash per syntax character, so
    the escaped expression is longer by the number of syntax characters,
    and it is the expression itself exactly when the expression has no
    syntax character. *)
Theorem escapeExpression_fixed (expression : jsstring) :
  List.length (escapeExpression expression)
  = (List.length expression + List.length (filter isSyntaxCharacter expression))%nat
  /\ (escapeExpression expression = expression
      <-> forall c, In c expression -> isSyntaxCharacter c = false).
Proof.
  rewrite escapeExpression_flat_map; split; [apply escape_length|]; split.
  - intros E c Hc.
    pose proof (escape_length expression) as L; rewrite E in L.
    destruct (isSyntaxCharacter c) eqn:S; [|reflexivity].
    assert (In c (filter isSyntaxCharacter expression))
      by (apply filter_In; auto).
    destruct (filter isSyntaxCharacter expression); [contradiction|].
    simpl in L; lia.
  - induction expression as [|c e IH]; intros H; [reflexivity|].
    cbn [flat_map]; unfold escapeUnit at 1.
    rewrite (H c (or_introl eq_refl)), IH; [reflexivity|].
    intros x Hx; apply H; now right.
Qed.

(** ** Flattening, splitting and joining *)

Lemma flattenUnit_idem (c : codeUnit) : flattenUnit (flattenUnit c) = flattenUnit c.
Proof.
  unfold flattenUnit; destruct (c =? SPACE) eqn:E; [reflexivity|now rewrite E].
Qed.

(** X17.  Flattening keeps the length of the text, works unit by unit
    (it distributes over concatenation), and flattening a flattened text
    changes nothing. *)
Theorem flattenText_shape (a b : jsstring) :
  List.length (flattenText a) = List.length a
  /\ flattenText (a ++ b) = flattenText a ++ flattenText b
  /\ flattenText (flattenText a) = flattenText a.
Proof.
  rewrite !flattenText_map; split; [apply length_map|].
  split; [apply map_app|].
  rewrite map_map; apply map_ext; intros c; apply flattenUnit_idem.
Qed.

Lemma split_length (sep : codeUnit) (s : jsstring) :
  List.length (split sep s) = S (List.length (filter (Z.eqb sep) s)).
Proof.
  induction s as [|c r IH]; [reflexivity|].
  destruct (Z.eq_dec c sep) as [->|N].
  - simpl; rewrite Z.eqb_refl; simpl; now rewrite IH.
  - destruct (split_cons sep c r N) as (h & t & E & ->).
    rewrite E in IH; cbn [filter].
    assert ((sep =? c) = false) as -> by (apply Z.eqb_neq; congruence).
    exact IH.
Qed.

(** X18.  The flattened text splits into one more piece than the input
    has spaces and line breaks. *)
Theorem flattenText_pieces (input : jsstring) :
  List.length (split LF (flattenText input))
  = S (List.length (filter (fun c => (c =? SPACE) || (c =? LF)) input)).
Proof.
  rewrite split_length, flattenText_map; f_equal.
  induction input as [|c r IH]; [reflexivity|].
  cbn [map filter]; unfold flattenUnit at 1.
  destruct (c =? SPACE) eqn:E; cbn [orb].
  - change (LF =? LF) with true; cbn iota; simpl; now rewrite IH.
  - rewrite (Z.eqb_sym LF c); destruct (c =? LF); simpl; now rewrite IH.
Qed.

(** X19.  Splitting a text on line breaks and joining the pieces with
    line breaks gives the text back, so a word file read by
    [getListOfWords] loses nothing. *)
Theorem join_split (s : jsstring) : join LF (split LF s) = s.
Proof.
  induction s as [|c r IH]; [reflexivity|].
  destruct (Z.eq_dec c LF) as [->|N].
  - pose proof (split_not_nil LF r) as K.
    cbn [split]; rewrite Z.eqb_refl.
    destruct (split LF r) as [|h t] eqn:E; [congruence|].
    change (join LF ([] :: h :: t)) with ([] ++ LF :: join LF (h :: t)).
    now rewrite IH.
  - destruct (split_cons LF c r N) as (h & t & E & ->).
    rewrite E in IH; destruct t as [|v t]; simpl in *; now rewrite IH.
Qed.


(** ** Sets, sorting and word removal *)

Lemma fold_setAdd_distinct (a s : list jsstring) :
  NoDup (s ++ a) -> fold_left setAdd a s = s ++ a.
Proof.
  revert s; induction a as [|x a IH]; intros s N; simpl.
  - now rewrite app_nil_r.
  - assert (Hx : ~ In x s).
    { apply NoDup_remove_2 in N; intros H; apply N, in_or_app; now left. }
    unfold setAdd; apply includes_false in Hx; rewrite Hx.
    rewrite IH; rewrite <- app_assoc; [reflexivity | exact N].
Qed.

(** X21.  The Set keeps each word once: [newSet] has no duplicate, has
    the members of the array, is never longer than the array, leaves an
    array without duplicates as it is, and so is idempotent. *)
Theorem newSet_distinct (a : list jsstring) :
  NoDup (newSet a)
  /\ (forall w, In w (newSet a) <-> In w a)
  /\ (List.length (newSet a) <= List.length a)%nat
  /\ newSet (newSet a) = newSet a.
Proof.
  pose proof (newSet_NoDup a) as N.
  split; [assumption|]; split; [apply newSet_In|]; split.
  - apply NoDup_incl_length; [assumption|].
    intros w Hw; now apply newSet_In.
  - unfold newSet at 1; now rewrite fold_setAdd_distinct.
Qed.

(** X22.  The sorted array depends only on which words the array holds
    and how often, not on their order: [sort] gives the same result on
    every rearrangement of an array. *)
Theorem sort_rearranged (a b : list jsstring) (Hperm : Permutation b a) :
  sort b = sort a.
Proof.
  apply sort_unique; [|apply sort_sorted].
  rewrite <- Hperm; apply sort_perm.
Qed.

Lemma sort_rearranged_witness :
  sort [str "b"; str "a"; str "c"] = sort [str "a"; str "b"; str "c"].
Proof.
  apply (sort_rearranged [str "a"; str "b"; str "c"] [str "b"; str "a"; str "c"]).
  apply perm_swap.
Defined.

Lemma includes_app (a b : list jsstring) (w : jsstring) :
  includes (a ++ b) w = includes a w || includes b w.
Proof. apply existsb_app. Qed.

(** X23.  Removing words composes: removing one list and then another
    is removing their concatenation; removing nothing leaves the array as
    it is, and removing the array from itself leaves nothing. *)
Theorem removeWords_compose (words a b : list jsstring) :
  removeWords (removeWords words a) b = removeWords words (a ++ b)
  /\ removeWords words [] = words
  /\ removeWords words words = [].
Proof.
  split; [|split].
  - unfold removeWords; induction words as [|w ws IH]; [reflexivity|].
    cbn [filter]; rewrite includes_app.
    destruct (includes a w); cbn [negb orb filter]; [exact IH|].
    destruct (includes b w); cbn [negb]; now rewrite IH.
  - unfold removeWords; induction words as [|w ws IH]; [reflexivity|].
    cbn [filter]; unfold includes at 1; cbn [existsb negb]; f_equal; exact IH.
  - apply no_members; intros w H; apply removeWords_In in H; tauto.
Qed.

(** ** Spaces among the special characters, and the console *)

(** X24.  A space in the special-character file has no effect: flattening
    has turned every space into a line break before stripping runs, so
    when lower-casing brings no space back the word list is the same with
    the space among the special characters as without it. *)
Theorem extract_space_special
        (toLowerCase : jsstring -> jsstring) (inputText cs : jsstring)
        (ignoredWords knownWords : list jsstring)
        (Hlower : ~ In SPACE (toLowerCase (flattenText inputText))) :
  extract toLowerCase inputText (splitUnits (SPACE :: cs)) ignoredWords knownWords
  = extract toLowerCase inputText (splitUnits cs) ignoredWords knownWords.
Proof.
  rewrite (extract_normalize _ _ _ _ _ _ (normalize_units toLowerCase inputText _)).
  rewrite (extract_normalize _ _ _ _ _ _ (normalize_units toLowerCase inputText cs)).
  do 2 f_equal; apply filter_ext_in; intros x Hx; f_equal.
  unfold mem; cbn [existsb].
  destruct (x =? SPACE) eqn:E; [|reflexivity].
  apply Z.eqb_eq in E; subst; contradiction.
Qed.

Lemma extract_space_special_witness :
  extract asciiLowerCase (str "El gato, el perro") (splitUnits (SPACE :: str ","))
          [[]] [[]]
  = extract asciiLowerCase (str "El gato, el perro") (splitUnits (str ","))
            [[]] [[]].
Proof.
  apply (extract_space_special asciiLowerCase (str "El gato, el perro") (str ",")).
  vm_compute; intuition discriminate.
Defined.

(** X25.  The console of a run that returns: the eleven progress lines,
    from "Process started..." to "Process ended.", are appended in the
    order of the steps, after what the console already held. *)
Theorem main_console
        (toLowerCase : jsstring -> jsstring) (w : World)
        (Hrun : fst (main toLowerCase w) = Some tt) :
  console (snd (main toLowerCase w))
  = console w ++ progressLines.
Proof.
  destruct (main_returns_files toLowerCase w Hrun)
    as (sc & ig & kn & it & A1 & A2 & A3 & A4).
  destruct (normalize_total toLowerCase it (splitUnits sc)) as (n & Hn).
  unfold normalize in Hn.
  unfold main, getSpecialCharacters, getListOfWords, readTextAsync,
    writeTextAsync, throwing, log, bind, ret.
  repeat (cbn [files console];
          first [rewrite A1 | rewrite A2 | rewrite A3 | rewrite A4 | rewrite Hn]).
  cbn [snd console]; rewrite <- !app_assoc; reflexivity.
Qed.

Lemma main_console_witness :
  console (snd (main asciiLowerCase sampleWorld2))
  = console sampleWorld2 ++ progressLines.
Proof.
  apply (main_console asciiLowerCase sampleWorld2).
  vm_compute; reflexivity.
Defined.
